(** * fibonacci.cpp: the Fibonacci numbers up to a limit, last fifteen printed

    A shallow embedding of [src/fibonacci.cpp] and the properties of its
    generation loop and of its print loop.

    Conventions of the embedding.
    - [int] is the 32-bit two's complement integer of the usual targets; a
      value is a [Z] in [[INT_MIN, INT_MAX]] and [int_add] writes the
      wrap-around of the hardware out.  The C++ standard leaves a signed sum
      that leaves the range undefined, so each place where the mathematical
      sum differs from the wrapped one is tracked ([sum_in_range]).
    - [std::size_t] is the 64-bit unsigned integer; [size_add] and
      [size_sub] wrap modulo [2^64].
    - [std::vector<int>] is a [list Z] in index order.  [back] and the
      subscript are partial: outside the vector they fault.
    - the two loops take fuel; running out of it is the fault [OutOfFuel].
    - standard output is the list of the insertions made into [std::cout],
      rendered to the characters written by [render]. *)

From Stdlib Require Import ZArith List String Ascii Bool Lia.
From Stdlib Require Import DecimalString.
Import ListNotations.

#[local] Open Scope Z_scope.

(** ** Machine integers *)

Definition INT_MAX : Z := 2147483647.
Definition INT_MIN : Z := -2147483648.

Definition in_int_range (z : Z) : Prop := INT_MIN <= z <= INT_MAX.

Definition in_int_rangeb (z : Z) : bool := (INT_MIN <=? z) && (z <=? INT_MAX).

(** Two's complement reduction of a mathematical integer to an [int]. *)
Definition wrap_int (z : Z) : Z := (z + 2 ^ 31) mod 2 ^ 32 - 2 ^ 31.

(** [a + b] on [int]. *)
Definition int_add (a b : Z) : Z := wrap_int (a + b).

Definition SIZE_MOD : Z := 2 ^ 64.

(** [a + b] and [a - b] on [std::size_t]. *)
Definition size_add (a b : Z) : Z := (a + b) mod SIZE_MOD.
Definition size_sub (a b : Z) : Z := (a - b) mod SIZE_MOD.

(** ** Faults and the result monad *)

Inductive fault : Type :=
| OutOfBounds   (* an access outside a vector *)
| OutOfFuel.    (* the fuel of a loop is used up *)

Inductive result (A : Type) : Type :=
| Ok (a : A)
| Err (f : fault).

Arguments Ok {A} a.
Arguments Err {A} f.

Definition bind {A B : Type} (m : result A) (k : A -> result B) : result B :=
  match m with
  | Ok a => k a
  | Err f => Err f
  end.

Notation "x <- m ;; k" := (bind m (fun x => k))
  (at level 61, m at next level, right associativity).

(** ** std::vector<int> *)

Module Vec.

Definition t : Type := list Z.

Definition empty (v : t) : bool :=
  match v with
  | [] => true
  | _ :: _ => false
  end.

Definition size (v : t) : Z := Z.of_nat (List.length v).

Definition push_back (v : t) (x : Z) : t := v ++ [x].

(** [v.back()]: the last element; a fault on the empty vector. *)
Fixpoint back (v : t) : result Z :=
  match v with
  | [] => Err OutOfBounds
  | [x] => Ok x
  | _ :: v' => back v'
  end.

(** [v[i]] for a [std::size_t] index; a fault outside the vector. *)
Definition get (v : t) (i : Z) : result Z :=
  if (0 <=? i) && (i <? size v)
  then match nth_error v (Z.to_nat i) with
       | Some x => Ok x
       | None => Err OutOfBounds
       end
  else Err OutOfBounds.

End Vec.

(** ** The generation loop (fibonacci.cpp, lines 7 to 20) *)

Record locals : Type := mkLocals {
  fibonacci : Vec.t;
  previous : Z;
  current : Z
}.

(** [std::vector<int> fibonacci; int previous = 0; int current = 1;] *)
Definition init : locals :=
  {| fibonacci := []; previous := 0; current := 1 |}.

(** The condition [fibonacci.empty() || fibonacci.back() != current]: [||]
    evaluates its right operand only when the left one is false. *)
Definition is_new (s : locals) : result bool :=
  if Vec.empty (fibonacci s) then Ok true
  else b <- Vec.back (fibonacci s) ;; Ok (negb (b =? current s)).

(** One execution of the body of the [while]. *)
Definition loop_body (s : locals) : result locals :=
  fresh <- is_new s ;;
  let fib := if fresh : bool
             then Vec.push_back (fibonacci s) (current s)
             else fibonacci s in
  let next := int_add (previous s) (current s) in
  Ok {| fibonacci := fib; previous := current s; current := next |}.

(** [while (current <= limit) { ... }] *)
Fixpoint generate_loop (fuel : nat) (limit : Z) (s : locals) : result locals :=
  match fuel with
  | O => Err OutOfFuel
  | S fuel' =>
      if current s <=? limit
      then s' <- loop_body s ;; generate_loop fuel' limit s'
      else Ok s
  end.

(** The vector the generation leaves: the [generate(limit)] of the
    specification. *)
Definition generate (fuel : nat) (limit : Z) : result Vec.t :=
  s <- generate_loop fuel limit init ;; Ok (fibonacci s).

(** The states at which the body is entered, in order: one per iteration. *)
Fixpoint iterations (fuel : nat) (limit : Z) (s : locals) : list locals :=
  match fuel with
  | O => []
  | S fuel' =>
      if current s <=? limit
      then match loop_body s with
           | Ok s' => s :: iterations fuel' limit s'
           | Err _ => [s]
           end
      else []
  end.

(** The addition [previous + current] of the iteration entered at [s] stays
    an [int], as do its operands. *)
Definition sum_in_range (s : locals) : Prop :=
  in_int_range (previous s) /\ in_int_range (current s) /\
  in_int_range (previous s + current s).

Definition sum_in_rangeb (s : locals) : bool :=
  in_int_rangeb (previous s) && in_int_rangeb (current s) &&
  in_int_rangeb (previous s + current s).

(** The guard of the [if] is false at [s]: the iteration appends nothing. *)
Definition suppressed (s : locals) : bool :=
  match is_new s with
  | Ok b => negb b
  | Err _ => false
  end.

(** ** Standard output *)

Inductive insertion : Type :=
| PutInt (z : Z)          (* std::cout << an int *)
| PutStr (s : string)     (* std::cout << a string literal *)
| PutEndl.                (* std::cout << std::endl *)

Definition stdout : Type := list insertion.

(** Decimal text of an [int], as [operator<<] writes it. *)
Definition string_of_int (z : Z) : string :=
  NilZero.string_of_int (Z.to_int z).

Definition newline : string := String (ascii_of_nat 10) EmptyString.

Definition render_one (w : insertion) : string :=
  match w with
  | PutInt z => string_of_int z
  | PutStr s => s
  | PutEndl => newline
  end.

(** The characters written, in order. *)
Definition render (out : stdout) : string :=
  fold_right (fun w acc => (render_one w ++ acc)%string) EmptyString out.

(** The numbers written, in order. *)
Fixpoint numbers (out : stdout) : list Z :=
  match out with
  | [] => []
  | PutInt z :: out' => z :: numbers out'
  | _ :: out' => numbers out'
  end.

(** ** The print loop (fibonacci.cpp, lines 22 to 31) *)

(** [for (std::size_t i = 0; i < count; ++i) { ... }], entered at [i] with
    [out] written so far. *)
Fixpoint print_loop (fuel : nat) (fib : Vec.t) (count i : Z) (out : stdout)
  : result stdout :=
  match fuel with
  | O => Err OutOfFuel
  | S fuel' =>
      if i <? count
      then
        let index := size_sub (size_sub (Vec.size fib) 1) i in
        x <- Vec.get fib index ;;
        let out1 := out ++ [PutInt x] in
        let out2 := if size_add i 1 <? count
                    then out1 ++ [PutStr " "]
                    else out1 in
        print_loop fuel' fib count (size_add i 1) out2
      else Ok out
  end.

(** [count = std::min(desiredCount, fibonacci.size())] and the loop: the
    [formatLastN(sequence, n)] of the specification, without the final
    [std::endl]. *)
Definition formatLastN (fuel : nat) (fib : Vec.t) (n : Z) (out : stdout)
  : result stdout :=
  let count := Z.min n (Vec.size fib) in
  print_loop fuel fib count 0 out.

(** ** main *)

Definition limit_1000 : Z := 1000.
Definition desiredCount : Z := 15.

Definition main (fuel : nat) : result stdout :=
  fib <- generate fuel limit_1000 ;;
  out <- formatLastN fuel fib desiredCount [] ;;
  Ok (out ++ [PutEndl]).

(** ** Vocabulary of the properties *)

(** [R] relates every element of [v] to the one after it. *)
Definition adjacent (R : Z -> Z -> Prop) (v : Vec.t) : Prop :=
  forall (i : nat) (a b : Z),
    nth_error v i = Some a -> nth_error v (S i) = Some b -> R a b.

(** Every element of the vector is at most [limit]. *)
Definition bounded_by (limit : Z) (s : locals) : Prop :=
  Forall (fun e => e <= limit) (fibonacci s).

(** No element of the vector equals the one after it. *)
Definition distinct_neighbours (s : locals) : Prop :=
  adjacent (fun a b => a <> b) (fibonacci s).

(** The Fibonacci numbers, by pairs [(F n, F (n + 1))]. *)
Fixpoint fib_pair (n : nat) : Z * Z :=
  match n with
  | O => (0, 1)
  | S n' => let '(a, b) := fib_pair n' in (b, a + b)
  end.

(** [F 0 = 0], [F 1 = 1], [F (n + 2) = F n + F (n + 1)]. *)
Definition F (n : nat) : Z := fst (fib_pair n).

(** The largest Fibonacci number that is an [int]: [F 46]. *)
Definition FIB_46 : Z := 1836311903.

(** The state at which iteration [k] (counted from 0) is entered, as long as
    the sums fit: the pair [(F k, F (k + 1))], over a vector that increases
    and ends in [F k]. *)
Record at_fib (k : nat) (s : locals) : Prop := {
  at_previous : previous s = F k;
  at_current : current s = F (S k);
  at_increasing : adjacent Z.lt (fibonacci s);
  at_first : k = 0%nat -> fibonacci s = [];
  at_back : (1 <= k)%nat -> Vec.back (fibonacci s) = Ok (F k)
}.

(** The Fibonacci numbers up to 1000, 1 once. *)
Definition fib_upto_1000 : Vec.t :=
  [1; 2; 3; 5; 8; 13; 21; 34; 55; 89; 144; 233; 377; 610; 987].

(** The vector after [k] iterations, as long as the sums fit: iteration
    [j] (counted from 0) appends [F (j + 1)], except iteration 1, which
    finds [F 2 = F 1] at the back. *)
Fixpoint stored_upto (k : nat) : Vec.t :=
  match k with
  | O => []
  | S j => if (j =? 1)%nat
           then stored_upto j
           else Vec.push_back (stored_upto j) (F (S j))
  end.

(** The state at which iteration [k] is entered, as long as the sums fit. *)
Definition state_at (k : nat) : locals :=
  {| fibonacci := stored_upto k; previous := F k; current := F (S k) |}.

(** The insertions that write [xs] with one space between neighbours. *)
Fixpoint spaced (xs : list Z) : stdout :=
  match xs with
  | [] => []
  | [x] => [PutInt x]
  | x :: rest => PutInt x :: PutStr " " :: spaced rest
  end.

(** The texts [ts] joined by single spaces. *)
Fixpoint join_spaces (ts : list string) : string :=
  match ts with
  | [] => EmptyString
  | [t] => t
  | t :: rest => (t ++ " " ++ join_spaces rest)%string
  end.

(** * Properties *)

(** ** Machine arithmetic *)

Lemma wrap_int_range (z : Z) : in_int_range (wrap_int z).
Proof.
  unfold in_int_range, wrap_int, INT_MIN, INT_MAX.
  pose proof (Z.mod_pos_bound (z + 2 ^ 31) (2 ^ 32) ltac:(lia)). lia.
Qed.

Lemma wrap_int_id (z : Z) : in_int_range z -> wrap_int z = z.
Proof.
  unfold in_int_range, wrap_int, INT_MIN, INT_MAX. intros Hz.
  rewrite Z.mod_small; lia.
Qed.

Lemma size_sub_small (a b : Z) :
  0 <= b <= a -> a < SIZE_MOD -> size_sub a b = a - b.
Proof. intros Hb Ha. unfold size_sub. apply Z.mod_small. lia. Qed.

Lemma size_add_small (a b : Z) :
  0 <= a -> 0 <= b -> a + b < SIZE_MOD -> size_add a b = a + b.
Proof. intros Ha Hb Hab. unfold size_add. apply Z.mod_small. lia. Qed.

(** ** The vector *)

Lemma back_snoc (v : Vec.t) (x : Z) : Vec.back (Vec.push_back v x) = Ok x.
Proof.
  unfold Vec.push_back. induction v as [|a v IH]; [reflexivity|].
  cbn [app Vec.back]. destruct (v ++ [x]) eqn:E; [|exact IH].
  destruct v; discriminate.
Qed.

Lemma back_cons (a b : Z) (v : Vec.t) : Vec.back (a :: b :: v) = Vec.back (b :: v).
Proof. reflexivity. Qed.

Lemma back_nonempty (v : Vec.t) : v <> [] -> exists x, Vec.back v = Ok x.
Proof.
  induction v as [|a v IH]; [congruence|]. intros _.
  destruct v as [|b v]; [exists a; reflexivity|].
  rewrite back_cons. apply IH. discriminate.
Qed.

Lemma back_In (v : Vec.t) (x : Z) : Vec.back v = Ok x -> In x v.
Proof.
  induction v as [|a v IH]; [discriminate|].
  destruct v as [|b v].
  - cbn. intros [= ->]. now left.
  - rewrite back_cons. intros H. right. exact (IH H).
Qed.

Lemma adjacent_nil (R : Z -> Z -> Prop) : adjacent R [].
Proof. intros [|i] a b H; discriminate. Qed.

Lemma adjacent_tail (R : Z -> Z -> Prop) (a : Z) (v : Vec.t) :
  adjacent R (a :: v) -> adjacent R v.
Proof. intros H i x y Hx Hy. exact (H (S i) x y Hx Hy). Qed.

Lemma adjacent_snoc (R : Z -> Z -> Prop) (v : Vec.t) (x : Z) :
  adjacent R v ->
  (forall p, Vec.back v = Ok p -> R p x) ->
  adjacent R (Vec.push_back v x).
Proof.
  unfold Vec.push_back. induction v as [|a v IH]; intros Hadj Hback.
  - intros [|[|i]] y z Hy Hz; discriminate.
  - intros [|i] y z Hy Hz.
    + cbn in Hy. injection Hy as <-. destruct v as [|b v].
      * cbn in Hz. injection Hz as <-. now apply Hback.
      * cbn in Hz. exact (Hadj 0%nat a z eq_refl Hz).
    + cbn in Hy, Hz. refine (IH _ _ i y z Hy Hz).
      * exact (adjacent_tail R a v Hadj).
      * intros p Hp. apply Hback. destruct v as [|b v]; [discriminate|].
        now rewrite back_cons.
Qed.

(** ** The body of the generation loop *)

(** The condition of the [if] never faults: [back] runs on a non-empty
    vector only. *)
Lemma is_new_total (s : locals) :
  (fibonacci s = [] /\ is_new s = Ok true) \/
  (exists p, Vec.back (fibonacci s) = Ok p /\
             is_new s = Ok (negb (p =? current s))).
Proof.
  unfold is_new. destruct (fibonacci s) as [|a v] eqn:E.
  - left. now split.
  - right. destruct (back_nonempty (a :: v) ltac:(discriminate)) as [p Hp].
    exists p. split; [exact Hp|]. cbn [Vec.empty]. now rewrite Hp.
Qed.

Lemma loop_body_spec (s : locals) :
  exists fresh : bool,
    is_new s = Ok fresh /\
    loop_body s =
      Ok {| fibonacci := if fresh
                         then Vec.push_back (fibonacci s) (current s)
                         else fibonacci s;
            previous := current s;
            current := int_add (previous s) (current s) |}.
Proof.
  unfold loop_body.
  destruct (is_new_total s) as [[_ H] | [p [_ H]]]; rewrite H;
    eexists; split; reflexivity.
Qed.

(** ** The generation loop *)

(** Fuel beyond what a run needs changes nothing. *)
Lemma generate_loop_fuel_mono (limit : Z) (fuel fuel' : nat) (s s' : locals) :
  generate_loop fuel limit s = Ok s' ->
  (fuel <= fuel')%nat ->
  generate_loop fuel' limit s = Ok s'.
Proof.
  revert fuel' s. induction fuel as [|fuel IH]; intros fuel' s H Hle.
  - discriminate.
  - destruct fuel' as [|fuel']; [lia|].
    cbn [generate_loop] in *. destruct (current s <=? limit); [|exact H].
    destruct (loop_body s) as [s1|f]; [|discriminate].
    cbn [bind] in *. apply IH; [exact H | lia].
Qed.

(** A property that the body preserves while the guard holds is true of
    every state at which the body is entered, and of the state the loop
    leaves, where the guard is false. *)
Lemma generate_loop_invariant (P : locals -> Prop) (limit : Z) :
  (forall s s', P s -> current s <= limit -> loop_body s = Ok s' -> P s') ->
  forall (fuel : nat) (s : locals),
    P s ->
    Forall P (iterations fuel limit s) /\
    (forall s', generate_loop fuel limit s = Ok s' ->
                P s' /\ limit < current s').
Proof.
  intros Hstep. induction fuel as [|fuel IH]; intros s Hs.
  - split; [constructor | discriminate].
  - cbn [iterations generate_loop].
    destruct (current s <=? limit) eqn:G.
    + apply Z.leb_le in G.
      destruct (loop_body s) as [s1|f] eqn:B; cbn [bind].
      * destruct (IH s1 (Hstep s s1 Hs G B)) as [H1 H2].
        split; [now constructor | exact H2].
      * split; [repeat constructor; exact Hs | discriminate].
    + apply Z.leb_gt in G. split; [constructor|].
      intros s' [= <-]. split; [exact Hs | lia].
Qed.

(** The number of iterations made is the length of [iterations]: with
    enough fuel to finish, no more fuel adds one. *)
Lemma iterations_fuel_mono (limit : Z) (fuel fuel' : nat) (s s' : locals) :
  generate_loop fuel limit s = Ok s' ->
  (fuel <= fuel')%nat ->
  iterations fuel' limit s = iterations fuel limit s.
Proof.
  revert fuel' s. induction fuel as [|fuel IH]; intros fuel' s H Hle.
  - discriminate.
  - destruct fuel' as [|fuel']; [lia|].
    cbn [generate_loop iterations] in *.
    destruct (current s <=? limit); [|reflexivity].
    destruct (loop_body s) as [s1|f]; [|discriminate].
    cbn [bind] in H. f_equal. apply IH; [exact H | lia].
Qed.

Lemma generate_loop_enter (fuel : nat) (limit : Z) (s s1 : locals) :
  (current s <=? limit) = true -> loop_body s = Ok s1 ->
  generate_loop (S fuel) limit s = generate_loop fuel limit s1.
Proof. intros G B. cbn [generate_loop]. now rewrite G, B. Qed.

Lemma generate_loop_exit (fuel : nat) (limit : Z) (s : locals) :
  (current s <=? limit) = false -> generate_loop (S fuel) limit s = Ok s.
Proof. intros G. cbn [generate_loop]. now rewrite G. Qed.

Lemma iterations_enter (fuel : nat) (limit : Z) (s s1 : locals) :
  (current s <=? limit) = true -> loop_body s = Ok s1 ->
  iterations (S fuel) limit s = s :: iterations fuel limit s1.
Proof. intros G B. cbn [iterations]. now rewrite G, B. Qed.

Lemma iterations_exit (fuel : nat) (limit : Z) (s : locals) :
  (current s <=? limit) = false -> iterations (S fuel) limit s = [].
Proof. intros G. cbn [iterations]. now rewrite G. Qed.

Lemma generate_inv (fuel : nat) (limit : Z) (seq : Vec.t) :
  generate fuel limit = Ok seq ->
  exists s, generate_loop fuel limit init = Ok s /\ seq = fibonacci s.
Proof.
  unfold generate. destruct (generate_loop fuel limit init) as [s|f]; cbn.
  - intros [= <-]. now exists s.
  - discriminate.
Qed.

(** ** Elements stay below the limit *)

Lemma bounded_by_step (limit : Z) (s s' : locals) :
  bounded_by limit s -> current s <= limit -> loop_body s = Ok s' ->
  bounded_by limit s'.
Proof.
  unfold bounded_by. intros Hs G B.
  destruct (loop_body_spec s) as [fresh [_ E]]. rewrite E in B.
  injection B as <-. cbn [fibonacci]. destruct fresh; [|exact Hs].
  unfold Vec.push_back. apply Forall_app. split; [exact Hs|].
  now repeat constructor.
Qed.

(** ** No two neighbours are equal *)

Lemma distinct_neighbours_step (s s' : locals) :
  distinct_neighbours s -> loop_body s = Ok s' -> distinct_neighbours s'.
Proof.
  unfold distinct_neighbours. intros Hs B.
  destruct (loop_body_spec s) as [fresh [N E]]. rewrite E in B.
  injection B as <-. cbn [fibonacci]. destruct fresh; [|exact Hs].
  apply adjacent_snoc; [exact Hs|]. intros p Hp.
  destruct (is_new_total s) as [[H0 _] | [q [Hq N']]].
  - rewrite H0 in Hp. discriminate.
  - rewrite Hp in Hq. injection Hq as <-. rewrite N' in N.
    injection N as N. apply negb_true_iff, Z.eqb_neq in N. exact N.
Qed.

(** ** The Fibonacci numbers *)

Lemma fib_pair_snd (n : nat) : snd (fib_pair n) = F (S n).
Proof. unfold F. cbn [fib_pair]. now destruct (fib_pair n). Qed.

Lemma F_rec (n : nat) : F (S (S n)) = F n + F (S n).
Proof.
  unfold F at 1. cbn [fib_pair].
  pose proof (fib_pair_snd n) as H2. unfold F in *. cbn [fib_pair] in *.
  destruct (fib_pair n) as [a b]. cbn in *. lia.
Qed.

Lemma F_nonneg (n : nat) : 0 <= F n /\ 0 <= F (S n).
Proof.
  induction n as [|n [IH1 IH2]]; [cbn; lia|].
  rewrite F_rec. lia.
Qed.

Lemma F_mono_S (n : nat) : F n <= F (S n).
Proof.
  destruct n as [|n]; [cbn; lia|]. rewrite F_rec.
  pose proof (F_nonneg n). lia.
Qed.

Lemma F_mono (n m : nat) : (n <= m)%nat -> F n <= F m.
Proof.
  induction 1 as [|m _ IH]; [lia|]. pose proof (F_mono_S m). lia.
Qed.

Lemma F_46 : F 46 = FIB_46.
Proof. reflexivity. Qed.

(** Every second Fibonacci number at least doubles. *)
Lemma F_pow2 (j : nat) :
  2 ^ Z.of_nat j <= F (2 * j + 1) /\ 2 ^ Z.of_nat j <= F (2 * j + 2).
Proof.
  induction j as [|j [IH1 IH2]]; [cbn; lia|].
  replace (2 * S j + 1)%nat with (S (S (2 * j + 1))) by lia.
  replace (2 * S j + 2)%nat with (S (S (2 * j + 2))) by lia.
  rewrite !F_rec.
  replace (S (2 * j + 1)) with (2 * j + 2)%nat by lia.
  rewrite Nat2Z.inj_succ, Z.pow_succ_r by lia.
  pose proof (F_mono_S (2 * j + 1)) as M1.
  replace (S (2 * j + 1)) with (2 * j + 2)%nat in M1 by lia.
  pose proof (F_mono_S (2 * j + 2)) as M2.
  lia.
Qed.

(** A Fibonacci number below [limit] has an index logarithmic in it. *)
Lemma F_index_log (n : nat) (limit : Z) :
  (1 <= n)%nat -> F n <= limit ->
  Z.of_nat n <= 2 * Z.log2 limit + 2.
Proof.
  intros Hn Hle.
  assert (exists j, n = (2 * j + 1)%nat \/ n = (2 * j + 2)%nat) as [j Hj].
  { exists ((n - 1) / 2)%nat.
    pose proof (Nat.div_mod_eq (n - 1) 2) as D.
    pose proof (Nat.mod_upper_bound (n - 1) 2 ltac:(lia)) as U. lia. }
  assert (2 ^ Z.of_nat j <= limit) as P.
  { destruct (F_pow2 j) as [P1 P2]. destruct Hj as [-> | ->]; lia. }
  assert (0 < limit) as L.
  { pose proof (Z.pow_pos_nonneg 2 (Z.of_nat j)). lia. }
  apply Z.log2_le_pow2 in P; [|exact L]. lia.
Qed.

(** ** The loop while no sum leaves [int] *)

Lemma at_fib_init : at_fib 0 init.
Proof.
  split; cbn; try reflexivity; try lia. apply adjacent_nil.
Qed.

Lemma at_fib_sum (k : nat) (s : locals) :
  at_fib k s -> (S (S k) <= 46)%nat -> sum_in_range s.
Proof.
  intros [Hp Hc _ _ _] Hk. unfold sum_in_range, in_int_range.
  rewrite Hp, Hc, <- F_rec.
  pose proof (F_nonneg k) as [N1 N2]. pose proof (F_nonneg (S k)) as [_ N3].
  pose proof (F_mono k 46 ltac:(lia)) as M1.
  pose proof (F_mono (S k) 46 ltac:(lia)) as M2.
  pose proof (F_mono (S (S k)) 46 Hk) as M3.
  rewrite F_46 in *. unfold FIB_46, INT_MIN, INT_MAX in *. lia.
Qed.

Lemma at_fib_step (k : nat) (s s' : locals) :
  at_fib k s -> (S (S k) <= 46)%nat -> loop_body s = Ok s' ->
  at_fib (S k) s'.
Proof.
  intros A Hk B. pose proof (at_fib_sum k s A Hk) as [_ [_ R]].
  destruct A as [Hp Hc Hinc Hfirst Hback].
  destruct (loop_body_spec s) as [fresh [N E]]. rewrite E in B.
  injection B as <-. split; cbn [fibonacci previous current].
  - exact Hc.
  - unfold int_add. rewrite (wrap_int_id _ R), Hp, Hc. now rewrite F_rec.
  - destruct fresh; [|exact Hinc]. apply adjacent_snoc; [exact Hinc|].
    intros p Hp'.
    destruct (is_new_total s) as [[H0 _] | [q [Hq N']]].
    + rewrite H0 in Hp'. discriminate.
    + rewrite Hp' in Hq. injection Hq as <-. rewrite N' in N.
      injection N as N. apply negb_true_iff, Z.eqb_neq in N.
      destruct k as [|k]; [rewrite Hfirst in Hp' by reflexivity; discriminate|].
      rewrite Hback in Hp' by lia. injection Hp' as <-.
      pose proof (F_mono_S (S k)). lia.
  - discriminate.
  - intros _. destruct fresh; [now rewrite back_snoc, Hc|].
    destruct (is_new_total s) as [[_ N'] | [q [Hq N']]];
      rewrite N' in N; [discriminate|].
    injection N as N. apply negb_false_iff, Z.eqb_eq in N.
    rewrite Hq. congruence.
Qed.

(** From the state of iteration [k], below [FIB_46] the loop ends: at some
    iteration [n] the guard fails, every iteration before it found the guard
    true and a sum that fits, and [n - k] iterations were made. *)
Lemma safe_run (limit : Z) :
  limit < FIB_46 ->
  forall (d k : nat) (s : locals),
    at_fib k s -> (k + d = 45)%nat ->
    exists (n : nat) (s' : locals),
      (k <= n <= 45)%nat /\
      generate_loop (S (n - k)) limit s = Ok s' /\
      at_fib n s' /\
      limit < F (S n) /\
      (forall j, (k <= j < n)%nat -> F (S j) <= limit) /\
      List.length (iterations (S (n - k)) limit s) = (n - k)%nat /\
      Forall sum_in_range (iterations (S (n - k)) limit s).
Proof.
  intros Hlim. induction d as [|d IH]; intros k s A Hk.
  - exists k, s. assert (k = 45%nat) as -> by lia.
    replace (45 - 45)%nat with 0%nat by lia.
    assert ((current s <=? limit) = false) as G.
    { apply Z.leb_gt. rewrite (at_current _ _ A), F_46. exact Hlim. }
    rewrite (generate_loop_exit _ _ _ G), (iterations_exit _ _ _ G).
    repeat apply conj; try lia; try exact A; try constructor.
    now rewrite F_46.
  - destruct (current s <=? limit) eqn:G.
    + destruct (loop_body_spec s) as [fresh [_ E]].
      pose proof (at_fib_step k s _ A ltac:(lia) E) as A1.
      destruct (IH (S k) _ A1 ltac:(lia))
        as [n [s' [Hn [Hrun [An [Hexit [Hbefore [Hlen Hsum]]]]]]]].
      exists n, s'.
      replace (S (n - k)) with (S (S (n - S k))) by lia.
      rewrite (generate_loop_enter _ _ _ _ G E), (iterations_enter _ _ _ _ G E).
      repeat apply conj; try lia; try exact An; try exact Hrun;
        try exact Hexit.
      * intros j Hj. destruct (Nat.eq_dec j k) as [-> | Hne].
        -- apply Z.leb_le in G. now rewrite <- (at_current _ _ A).
        -- apply Hbefore. lia.
      * cbn [List.length]. rewrite Hlen. lia.
      * constructor; [|exact Hsum]. apply (at_fib_sum k s A). lia.
    + exists k, s. replace (k - k)%nat with 0%nat by lia.
      rewrite (generate_loop_exit _ _ _ G), (iterations_exit _ _ _ G).
      repeat apply conj; try lia; try exact A; try constructor.
      apply Z.leb_gt in G. now rewrite <- (at_current _ _ A).
Qed.

(** Below [FIB_46] the generation ends after [n] iterations, logarithmic in
    the limit, with no sum outside [int] and an increasing vector. *)
Lemma generate_safe (limit : Z) :
  1 <= limit < FIB_46 ->
  exists (n : nat) (s : locals),
    generate_loop (S n) limit init = Ok s /\
    List.length (iterations (S n) limit init) = n /\
    Z.of_nat n <= 2 * Z.log2 limit + 2 /\
    Forall sum_in_range (iterations (S n) limit init) /\
    adjacent Z.lt (fibonacci s).
Proof.
  intros [H1 H2].
  destruct (safe_run limit H2 45 0 init at_fib_init eq_refl)
    as [n [s [Hn [Hrun [An [Hexit [Hbefore [Hlen Hsum]]]]]]]].
  rewrite Nat.sub_0_r in *.
  exists n, s. repeat apply conj; try assumption.
  - assert (2 <= n)%nat as Hn2.
    { destruct n as [|[|n]]; [cbn in Hexit; lia | cbn in Hexit; lia | lia]. }
    apply F_index_log; [lia|].
    destruct n as [|n]; [lia|]. apply Hbefore. lia.
  - exact (at_increasing _ _ An).
Qed.

(** ** The print loop *)

Lemma numbers_app (a b : stdout) : numbers (a ++ b) = (numbers a ++ numbers b)%list.
Proof.
  induction a as [|w a IH]; [reflexivity|].
  destruct w; cbn [app numbers]; now rewrite IH.
Qed.

Lemma skipn_nth_error (l : list Z) (i : nat) (x : Z) :
  nth_error l i = Some x -> skipn i l = x :: skipn (S i) l.
Proof.
  revert l. induction i as [|i IH]; intros [|a l] H; try discriminate.
  - now injection H as <-.
  - cbn in H. rewrite skipn_cons. now apply IH.
Qed.

(** Iteration [i] of the print loop reads inside the vector: the index
    [size - 1 - i] does not wrap, is below [size], and holds element [i] of
    the reversed vector. *)
Lemma index_in_bounds (fib : Vec.t) (count i : Z) :
  count <= Vec.size fib -> Vec.size fib < SIZE_MOD -> 0 <= i < count ->
  let index := size_sub (size_sub (Vec.size fib) 1) i in
  0 <= index < Vec.size fib /\
  exists x, Vec.get fib index = Ok x /\
            nth_error (rev fib) (Z.to_nat i) = Some x.
Proof.
  intros Hc Hs Hi index.
  assert (index = Vec.size fib - 1 - i) as Hidx.
  { unfold index. rewrite (size_sub_small (Vec.size fib) 1) by lia.
    apply size_sub_small; lia. }
  split; [lia|]. unfold Vec.get.
  replace ((0 <=? index) && (index <? Vec.size fib)) with true
    by (symmetry; apply andb_true_iff; split;
        [apply Z.leb_le | apply Z.ltb_lt]; lia).
  unfold Vec.size in *. rewrite nth_error_rev.
  replace (Z.to_nat i <? List.length fib)%nat with true
    by (symmetry; apply Nat.ltb_lt; lia).
  replace (List.length fib - S (Z.to_nat i))%nat with (Z.to_nat index) by lia.
  destruct (nth_error fib (Z.to_nat index)) as [x|] eqn:E.
  - now exists x.
  - apply nth_error_None in E. lia.
Qed.

(** With fuel for the iterations left, the loop ends and has written, after
    [out], the next [d] elements of the reversed vector. *)
Lemma print_loop_spec (fib : Vec.t) (count : Z) :
  count <= Vec.size fib -> Vec.size fib < SIZE_MOD ->
  forall (d : nat) (i : Z) (out : stdout) (fuel : nat),
    0 <= i -> i + Z.of_nat d = count -> (d < fuel)%nat ->
    exists out',
      print_loop fuel fib count i out = Ok out' /\
      numbers out' =
        (numbers out ++ firstn d (skipn (Z.to_nat i) (rev fib)))%list.
Proof.
  intros Hc Hs. induction d as [|d IH]; intros i out fuel Hi Hd Hf;
    (destruct fuel as [|fuel]; [lia|]); cbn [print_loop].
  - replace (i <? count) with false by (symmetry; apply Z.ltb_ge; lia).
    exists out. now rewrite firstn_0, app_nil_r.
  - replace (i <? count) with true by (symmetry; apply Z.ltb_lt; lia).
    destruct (index_in_bounds fib count i Hc Hs ltac:(lia)) as [_ [x [G N]]].
    rewrite G. cbn [bind].
    rewrite (size_add_small i 1) by lia.
    destruct (IH (i + 1)
                (if i + 1 <? count
                 then (out ++ [PutInt x]) ++ [PutStr " "]
                 else out ++ [PutInt x])%list
                fuel ltac:(lia) ltac:(lia) ltac:(lia)) as [out' [R Hn]].
    exists out'. split; [exact R|]. rewrite Hn.
    rewrite (skipn_nth_error _ _ _ N). cbn [firstn].
    replace (Z.to_nat (i + 1)) with (S (Z.to_nat i)) by lia.
    destruct (i + 1 <? count); rewrite !numbers_app; cbn [numbers];
      rewrite ?app_nil_r, <- ?app_assoc; reflexivity.
Qed.

(** Whatever the fuel, the loop does not read outside the vector. *)
Lemma print_loop_in_bounds (fib : Vec.t) (count : Z) :
  count <= Vec.size fib -> Vec.size fib < SIZE_MOD ->
  forall (fuel : nat) (i : Z) (out : stdout),
    0 <= i -> print_loop fuel fib count i out <> Err OutOfBounds.
Proof.
  intros Hc Hs. induction fuel as [|fuel IH]; intros i out Hi;
    cbn [print_loop]; [discriminate|].
  destruct (i <? count) eqn:G; [|discriminate]. apply Z.ltb_lt in G.
  destruct (index_in_bounds fib count i Hc Hs ltac:(lia)) as [_ [x [E _]]].
  rewrite E. cbn [bind]. apply IH. unfold size_add.
  apply Z.mod_pos_bound. reflexivity.
Qed.

(** As [print_loop_spec], with the insertions themselves: the numbers and,
    between two of them and nowhere else, one space. *)
Lemma print_loop_exact (fib : Vec.t) (count : Z) :
  count <= Vec.size fib -> Vec.size fib < SIZE_MOD ->
  forall (d : nat) (i : Z) (out : stdout) (fuel : nat),
    0 <= i -> i + Z.of_nat d = count -> (d < fuel)%nat ->
    print_loop fuel fib count i out =
      Ok (out ++ spaced (firstn d (skipn (Z.to_nat i) (rev fib))))%list.
Proof.
  intros Hc Hs. induction d as [|d IH]; intros i out fuel Hi Hd Hf;
    (destruct fuel as [|fuel]; [lia|]); cbn [print_loop].
  - replace (i <? count) with false by (symmetry; apply Z.ltb_ge; lia).
    now rewrite firstn_0, app_nil_r.
  - replace (i <? count) with true by (symmetry; apply Z.ltb_lt; lia).
    destruct (index_in_bounds fib count i Hc Hs ltac:(lia)) as [_ [x [G N]]].
    rewrite G. cbn [bind]. rewrite (size_add_small i 1) by lia.
    rewrite IH by lia.
    rewrite (skipn_nth_error _ _ _ N). cbn [firstn].
    replace (Z.to_nat (i + 1)) with (S (Z.to_nat i)) by lia.
    destruct (i + 1 <? count) eqn:More.
    + apply Z.ltb_lt in More.
      destruct (firstn d (skipn (S (Z.to_nat i)) (rev fib))) as [|y r] eqn:E.
      * apply (f_equal (@List.length Z)) in E.
        rewrite length_firstn, length_skipn, length_rev in E.
        unfold Vec.size in *. cbn [List.length] in E. lia.
      * cbn [spaced]. now rewrite <- !app_assoc.
    + apply Z.ltb_ge in More. assert (d = 0%nat) as -> by lia.
      rewrite firstn_0. cbn [spaced]. now rewrite app_nil_r.
Qed.

Lemma numbers_spaced (xs : list Z) : numbers (spaced xs) = xs.
Proof.
  induction xs as [|x [|y r] IH]; [reflexivity | reflexivity |].
  change (numbers (spaced (x :: y :: r)))
    with (x :: numbers (spaced (y :: r))).
  now rewrite IH.
Qed.

(** Whatever the fuel and the limit, the generation does not read outside
    the vector. *)
Lemma generate_loop_in_bounds (limit : Z) (fuel : nat) (s : locals) :
  generate_loop fuel limit s <> Err OutOfBounds.
Proof.
  revert s. induction fuel as [|fuel IH]; intros s; cbn [generate_loop];
    [discriminate|].
  destruct (current s <=? limit); [|discriminate].
  destruct (loop_body_spec s) as [fresh [_ E]]. rewrite E. cbn [bind].
  apply IH.
Qed.

(** ** Runs do not depend on the fuel *)

Lemma generate_loop_deterministic (limit : Z) (f1 f2 : nat) (s s1 s2 : locals) :
  generate_loop f1 limit s = Ok s1 ->
  generate_loop f2 limit s = Ok s2 ->
  s1 = s2.
Proof.
  intros H1 H2. destruct (Nat.le_ge_cases f1 f2) as [L | L].
  - rewrite (generate_loop_fuel_mono _ _ _ _ _ H1 L) in H2. congruence.
  - rewrite (generate_loop_fuel_mono _ _ _ _ _ H2 L) in H1. congruence.
Qed.

Lemma generate_deterministic (limit : Z) (f1 f2 : nat) (v1 v2 : Vec.t) :
  generate f1 limit = Ok v1 -> generate f2 limit = Ok v2 -> v1 = v2.
Proof.
  intros H1 H2.
  destruct (generate_inv _ _ _ H1) as [s1 [R1 ->]].
  destruct (generate_inv _ _ _ H2) as [s2 [R2 ->]].
  now rewrite (generate_loop_deterministic _ _ _ _ _ _ R1 R2).
Qed.

Lemma generate_fuel_mono (limit : Z) (fuel fuel' : nat) (v : Vec.t) :
  generate fuel limit = Ok v -> (fuel <= fuel')%nat ->
  generate fuel' limit = Ok v.
Proof.
  intros H L. destruct (generate_inv _ _ _ H) as [s [R ->]].
  unfold generate. now rewrite (generate_loop_fuel_mono _ _ _ _ _ R L).
Qed.

(** With less fuel the loop enters a prefix of the same iterations. *)
Lemma iterations_prefix (limit : Z) (fuel fuel' : nat) (s : locals) :
  (fuel <= fuel')%nat ->
  exists rest,
    iterations fuel' limit s = (iterations fuel limit s ++ rest)%list.
Proof.
  revert fuel' s. induction fuel as [|fuel IH]; intros fuel' s L.
  - now exists (iterations fuel' limit s).
  - destruct fuel' as [|fuel']; [lia|]. cbn [iterations].
    destruct (current s <=? limit); [|now exists []].
    destruct (loop_body s) as [s1|f]; [|now exists []].
    destruct (IH fuel' s1 ltac:(lia)) as [rest E].
    exists rest. now rewrite E.
Qed.

Lemma print_loop_fuel_mono (fib : Vec.t) (count : Z) (fuel fuel' : nat)
      (i : Z) (out out' : stdout) :
  print_loop fuel fib count i out = Ok out' ->
  (fuel <= fuel')%nat ->
  print_loop fuel' fib count i out = Ok out'.
Proof.
  revert fuel' i out. induction fuel as [|fuel IH]; intros fuel' i out H L.
  - discriminate.
  - destruct fuel' as [|fuel']; [lia|]. cbn [print_loop] in *.
    destruct (i <? count); [|exact H].
    destruct (Vec.get fib _) as [x|f]; [|discriminate].
    cbn [bind] in *. apply IH; [exact H | lia].
Qed.

Lemma sum_in_rangeb_ok (s : locals) : sum_in_rangeb s = true -> sum_in_range s.
Proof.
  unfold sum_in_rangeb, sum_in_range, in_int_rangeb, in_int_range.
  rewrite !andb_true_iff, !Z.leb_le. tauto.
Qed.

(** ** The program at its constants *)

Lemma generate_17_1000 : generate 17 limit_1000 = Ok fib_upto_1000.
Proof. vm_compute. reflexivity. Qed.

Lemma generate_1000_any_fuel (fuel : nat) (seq : Vec.t) :
  generate fuel limit_1000 = Ok seq -> seq = fib_upto_1000.
Proof.
  intros H. exact (generate_deterministic _ _ _ _ _ H generate_17_1000).
Qed.

Lemma main_17 :
  exists out,
    main 17 = Ok out /\
    render out =
      ("987 610 377 233 144 89 55 34 21 13 8 5 3 2 1" ++ newline)%string.
Proof. eexists. split; [vm_compute; reflexivity | vm_compute; reflexivity]. Qed.

Lemma main_fuel_mono (fuel fuel' : nat) (out : stdout) :
  main fuel = Ok out -> (fuel <= fuel')%nat -> main fuel' = Ok out.
Proof.
  unfold main, formatLastN. intros H L.
  destruct (generate fuel limit_1000) as [fib|f] eqn:G; [|discriminate].
  rewrite (generate_fuel_mono _ _ _ _ G L). cbn [bind] in *.
  destruct (print_loop fuel fib _ 0 []) as [o|f] eqn:P; [|discriminate].
  now rewrite (print_loop_fuel_mono _ _ _ _ _ _ _ P L).
Qed.

(** * The claims *)

(** C1: running the program writes exactly one line to standard output, the
    text [987 610 377 233 144 89 55 34 21 13 8 5 3 2 1] followed by a
    newline: single spaces between the numbers, nothing after the last
    number but the newline.  Seventeen units of fuel are enough for both
    loops, and more change nothing. *)
Theorem main_writes_line (fuel : nat) :
  (17 <= fuel)%nat ->
  exists out,
    main fuel = Ok out /\
    render out =
      ("987 610 377 233 144 89 55 34 21 13 8 5 3 2 1" ++ newline)%string.
Proof.
  intros L. destruct main_17 as [out [R T]].
  exists out. split; [exact (main_fuel_mono _ _ _ R L) | exact T].
Qed.

Lemma main_writes_line_witness :
  (17 <= 17)%nat /\
  exists out,
    main 17 = Ok out /\
    render out =
      ("987 610 377 233 144 89 55 34 21 13 8 5 3 2 1" ++ newline)%string.
Proof. split; [lia | apply (main_writes_line 17); lia]. Defined.

(** C2, as the specification words it, fails: the vector that the
    generation with limit 1000 leaves never has 14 elements. *)
Lemma generate_1000_length_not_14 :
  ~ (exists (fuel : nat) (seq : Vec.t),
        generate fuel limit_1000 = Ok seq /\ List.length seq = 14%nat).
Proof.
  intros [fuel [seq [H L]]].
  rewrite (generate_1000_any_fuel _ _ H) in L. discriminate.
Qed.

(** C2 (amended): after the generation loop has run with limit 1000 the
    vector is exactly [1; 2; 3; 5; 8; 13; 21; 34; 55; 89; 144; 233; 377;
    610; 987], which are 15 elements; the loop makes 16 iterations and the
    guard against a repeated value is false in exactly one of them, the
    second, which is entered with the vector [1] and [current = 1]. *)
Theorem generate_1000_sequence (fuel : nat) :
  (17 <= fuel)%nat ->
  exists seq : Vec.t,
    generate fuel limit_1000 = Ok seq /\
    seq = [1; 2; 3; 5; 8; 13; 21; 34; 55; 89; 144; 233; 377; 610; 987] /\
    List.length seq = 15%nat /\
    List.length (iterations fuel limit_1000 init) = 16%nat /\
    filter suppressed (iterations fuel limit_1000 init) =
      [{| fibonacci := [1]; previous := 1; current := 1 |}] /\
    nth_error (iterations fuel limit_1000 init) 1 =
      Some {| fibonacci := [1]; previous := 1; current := 1 |}.
Proof.
  intros L.
  assert (exists s, generate_loop 17 limit_1000 init = Ok s) as [s R]
    by (eexists; vm_compute; reflexivity).
  rewrite (iterations_fuel_mono _ _ _ _ _ R L).
  exists fib_upto_1000.
  split; [exact (generate_fuel_mono _ _ _ _ generate_17_1000 L)|].
  repeat apply conj; vm_compute; reflexivity.
Qed.

Lemma generate_1000_sequence_witness :
  (17 <= 20)%nat /\
  exists seq : Vec.t,
    generate 20 limit_1000 = Ok seq /\
    seq = [1; 2; 3; 5; 8; 13; 21; 34; 55; 89; 144; 233; 377; 610; 987] /\
    List.length seq = 15%nat.
Proof.
  split; [lia|].
  destruct (generate_1000_sequence 20 ltac:(lia)) as [seq [G [E [N _]]]].
  exists seq. repeat apply conj; assumption.
Defined.

(** C3: for every limit of at least 1, every element of the vector that the
    generation loop leaves is at most the limit. *)
Theorem generate_bounded (limit : Z) (fuel : nat) (seq : Vec.t) :
  1 <= limit ->
  generate fuel limit = Ok seq ->
  Forall (fun e => e <= limit) seq.
Proof.
  intros _ H. destruct (generate_inv _ _ _ H) as [s [R ->]].
  refine (proj1 (proj2 (generate_loop_invariant (bounded_by limit) limit
                          (bounded_by_step limit) fuel init _) s R)).
  constructor.
Qed.

Lemma generate_bounded_witness :
  1 <= 1000 /\
  generate 17 1000 = Ok fib_upto_1000 /\
  Forall (fun e => e <= 1000) fib_upto_1000.
Proof.
  split; [lia|]. split; [exact generate_17_1000|].
  apply (generate_bounded 1000 17); [lia | exact generate_17_1000].
Defined.

(** C4: for every limit of at least 1, any two neighbouring elements of the
    generated vector differ. *)
Theorem generate_no_equal_neighbours
        (limit : Z) (fuel : nat) (seq : Vec.t) (i : nat) (a b : Z) :
  1 <= limit ->
  generate fuel limit = Ok seq ->
  nth_error seq i = Some a ->
  nth_error seq (S i) = Some b ->
  a <> b.
Proof.
  intros _ H. destruct (generate_inv _ _ _ H) as [s [R ->]].
  refine (proj1 (proj2 (generate_loop_invariant distinct_neighbours limit
                          _ fuel init _) s R) i a b).
  - intros s0 s1 P _ B. exact (distinct_neighbours_step s0 s1 P B).
  - apply adjacent_nil.
Qed.

Lemma generate_no_equal_neighbours_witness :
  1 <= 1000 /\
  generate 17 1000 = Ok fib_upto_1000 /\
  nth_error fib_upto_1000 0 = Some 1 /\
  nth_error fib_upto_1000 1 = Some 2 /\
  1 <> 2.
Proof.
  split; [lia|]. split; [exact generate_17_1000|].
  split; [reflexivity|]. split; [reflexivity|].
  apply (generate_no_equal_neighbours 1000 17 fib_upto_1000 0 1 2);
    [lia | exact generate_17_1000 | reflexivity | reflexivity].
Defined.

(** C5, as the specification words it, fails: with the limit [F 46], the
    largest Fibonacci number that is an [int], the sum after it wraps to a
    negative value, which is at most the limit and is appended. *)
Lemma generate_FIB_46_not_increasing :
  ~ (forall (fuel : nat) (seq : Vec.t) (i : nat) (a b : Z),
        1 <= FIB_46 ->
        generate fuel FIB_46 = Ok seq ->
        (1 <= i)%nat ->
        nth_error seq i = Some a ->
        nth_error seq (S i) = Some b ->
        a < b).
Proof.
  intros H.
  destruct (generate 60 FIB_46) as [seq|f] eqn:G;
    vm_compute in G; [|discriminate G].
  injection G as G.
  specialize (H 60%nat seq 44%nat 1836311903 (-1323752223)).
  assert (1836311903 < -1323752223) as Absurd; [|lia].
  apply H; try (unfold FIB_46; lia);
    rewrite <- G; vm_compute; reflexivity.
Qed.

(** C5 (amended): for every limit from 1 to [F 46 - 1 = 1836311902], the
    generated vector is strictly increasing after its first element: at
    every index [i >= 1] with a successor, the element is below the next. *)
Theorem generate_increasing
        (limit : Z) (fuel : nat) (seq : Vec.t) (i : nat) (a b : Z) :
  1 <= limit < FIB_46 ->
  generate fuel limit = Ok seq ->
  (1 <= i)%nat ->
  nth_error seq i = Some a ->
  nth_error seq (S i) = Some b ->
  a < b.
Proof.
  intros Hl H _. destruct (generate_inv _ _ _ H) as [s [R ->]].
  destruct (generate_safe limit Hl) as [n [s' [R' [_ [_ [_ Inc]]]]]].
  rewrite (generate_loop_deterministic _ _ _ _ _ _ R R').
  apply Inc.
Qed.

Lemma generate_increasing_witness :
  1 <= 1000 < FIB_46 /\
  generate 17 1000 = Ok fib_upto_1000 /\
  (1 <= 1)%nat /\
  nth_error fib_upto_1000 1 = Some 2 /\
  nth_error fib_upto_1000 2 = Some 3 /\
  2 < 3.
Proof.
  split; [unfold FIB_46; lia|]. split; [vm_compute; reflexivity|].
  split; [lia|]. split; [reflexivity|]. split; [reflexivity|].
  apply (generate_increasing 1000 17 fib_upto_1000 1 2 3);
    [unfold FIB_46; lia | vm_compute; reflexivity | lia
     | reflexivity | reflexivity].
Defined.

(** C6: for every non-empty vector whose size is a [size_t] and every
    [size_t] [n], the print loop ends without a fault and writes exactly
    [min n size] numbers, the last ones of the vector from the back, and
    nothing else but one space between two of them: no padding.  When the
    vector is shorter than [n], these are all its elements. *)
Theorem formatLastN_count (fib : Vec.t) (n : Z) (fuel : nat) :
  fib <> [] ->
  0 <= n < SIZE_MOD ->
  Vec.size fib < SIZE_MOD ->
  (Z.to_nat (Z.min n (Vec.size fib)) < fuel)%nat ->
  exists out,
    formatLastN fuel fib n [] = Ok out /\
    out = spaced (firstn (Z.to_nat (Z.min n (Vec.size fib))) (rev fib)) /\
    Z.of_nat (List.length (numbers out)) = Z.min n (Vec.size fib) /\
    numbers out = firstn (Z.to_nat (Z.min n (Vec.size fib))) (rev fib) /\
    (Vec.size fib < n -> numbers out = rev fib /\ out = spaced (rev fib)).
Proof.
  intros _ Hn Hs Hf. unfold formatLastN.
  assert (0 <= Vec.size fib) as S0 by (unfold Vec.size; lia).
  pose proof (print_loop_exact fib (Z.min n (Vec.size fib)) ltac:(lia) Hs
                (Z.to_nat (Z.min n (Vec.size fib))) 0 [] fuel
                ltac:(lia) ltac:(lia) Hf) as R.
  cbn [app Z.to_nat skipn] in R.
  eexists. split; [exact R|]. split; [reflexivity|].
  rewrite numbers_spaced. split; [|split; [reflexivity|]].
  - rewrite length_firstn, length_rev. unfold Vec.size in *. lia.
  - intros Hlt.
    assert (firstn (Z.to_nat (Z.min n (Vec.size fib))) (rev fib) = rev fib)
      as All
      by (apply firstn_all2; rewrite length_rev; unfold Vec.size in *; lia).
    now rewrite All.
Qed.

Lemma formatLastN_count_witness :
  [1; 2; 3] <> [] /\
  0 <= 15 < SIZE_MOD /\
  Vec.size [1; 2; 3] < SIZE_MOD /\
  exists out,
    formatLastN 4 [1; 2; 3] 15 [] = Ok out /\
    out = [PutInt 3; PutStr " "; PutInt 2; PutStr " "; PutInt 1] /\
    Z.of_nat (List.length (numbers out)) = 3 /\
    numbers out = [3; 2; 1].
Proof.
  assert ([1; 2; 3] <> []) as H0 by discriminate.
  assert (0 <= 15 < SIZE_MOD) as H1
    by (vm_compute; split; [discriminate | reflexivity]).
  assert (Vec.size [1; 2; 3] < SIZE_MOD) as H2 by (vm_compute; reflexivity).
  assert (Z.to_nat (Z.min 15 (Vec.size [1; 2; 3]%Z)) < 4)%nat as H3
    by (vm_compute; lia).
  split; [exact H0|]. split; [exact H1|]. split; [exact H2|].
  destruct (formatLastN_count [1; 2; 3] 15 4 H0 H1 H2 H3)
    as [out [R [E [L [N _]]]]].
  exists out. split; [exact R|]. split; [exact E|].
  split; [exact L | exact N].
Defined.

(** From [FIB_46] on, the loop reaches the iteration that is entered with
    [(F 45, F 46)]: the guard held at every iteration before it. *)
Lemma reach_F_46 (limit : Z) :
  FIB_46 <= limit ->
  forall (d k : nat) (s : locals),
    at_fib k s -> (k + d = 45)%nat ->
    exists s', at_fib 45 s' /\ In s' (iterations (S d) limit s).
Proof.
  intros Hl. induction d as [|d IH]; intros k s A Hk;
    assert ((current s <=? limit) = true) as G
      by (apply Z.leb_le; rewrite (at_current _ _ A);
          pose proof (F_mono (S k) 46 ltac:(lia)) as M;
          rewrite F_46 in M; lia);
    destruct (loop_body_spec s) as [fresh [_ E]];
    rewrite (iterations_enter _ _ _ _ G E).
  - exists s. assert (k = 45%nat) as <- by lia. split; [exact A | now left].
  - pose proof (at_fib_step k s _ A ltac:(lia) E) as A1.
    destruct (IH (S k) _ A1 ltac:(lia)) as [s' [A' I]].
    exists s'. split; [exact A' | now right].
Qed.

(** The bound [FIB_46] is where overflow begins: with any limit from
    [FIB_46] on, the loop enters an iteration whose sum, [F 47], is not an
    [int]. *)
Lemma overflow_from_FIB_46 (limit : Z) :
  FIB_46 <= limit ->
  exists s,
    In s (iterations 46 limit init) /\
    previous s + current s = 2971215073 /\
    ~ sum_in_range s.
Proof.
  intros Hl.
  destruct (reach_F_46 limit Hl 45 0 init at_fib_init eq_refl) as [s [A I]].
  exists s. split; [exact I|].
  assert (previous s + current s = 2971215073) as E.
  { rewrite (at_previous _ _ A), (at_current _ _ A). reflexivity. }
  split; [exact E|]. unfold sum_in_range, in_int_range, INT_MAX.
  rewrite E. lia.
Qed.

(** With the limit [INT_MAX] the guard [current <= limit] holds of every
    [int]: no amount of fuel lets the loop end. *)
Lemma generate_loop_INT_MAX (fuel : nat) (s : locals) :
  current s <= INT_MAX -> generate_loop fuel INT_MAX s = Err OutOfFuel.
Proof.
  revert s. induction fuel as [|fuel IH]; intros s Hs; [reflexivity|].
  destruct (loop_body_spec s) as [fresh [_ E]].
  rewrite (generate_loop_enter _ _ _ _ (proj2 (Z.leb_le _ _) Hs) E).
  apply IH. cbn [current]. apply wrap_int_range.
Qed.

(** C7, as the specification words it, fails: with the limit [INT_MAX],
    which is at least 1, the generation never returns. *)
Lemma generate_INT_MAX_never_returns :
  ~ (exists (fuel : nat) (seq : Vec.t), generate fuel INT_MAX = Ok seq).
Proof.
  intros [fuel [seq H]]. destruct (generate_inv _ _ _ H) as [s [R _]].
  rewrite generate_loop_INT_MAX in R; [discriminate R|].
  unfold INT_MAX. cbn. lia.
Qed.

(** C7 (amended): for every limit from 1 to [F 46 - 1 = 1836311902], the
    generation ends: there is a number [n] of iterations, at most
    [2 * log2 limit + 2], after which the guard fails; any fuel above [n]
    returns the same vector after exactly [n] iterations. *)
Theorem generate_terminates (limit : Z) :
  1 <= limit < FIB_46 ->
  exists (n : nat) (seq : Vec.t),
    Z.of_nat n <= 2 * Z.log2 limit + 2 /\
    forall fuel : nat,
      (n < fuel)%nat ->
      generate fuel limit = Ok seq /\
      List.length (iterations fuel limit init) = n.
Proof.
  intros Hl. destruct (generate_safe limit Hl) as [n [s [R [N [B _]]]]].
  exists n, (fibonacci s). split; [exact B|]. intros fuel Hf.
  assert (S n <= fuel)%nat as L by lia. split.
  - unfold generate. now rewrite (generate_loop_fuel_mono _ _ _ _ _ R L).
  - now rewrite (iterations_fuel_mono _ _ _ _ _ R L).
Qed.

Lemma generate_terminates_witness :
  1 <= 1000 < FIB_46 /\
  exists (n : nat) (seq : Vec.t),
    Z.of_nat n <= 2 * Z.log2 1000 + 2 /\
    forall fuel : nat,
      (n < fuel)%nat ->
      generate fuel 1000 = Ok seq /\
      List.length (iterations fuel 1000 init) = n.
Proof.
  split; [unfold FIB_46; lia | apply (generate_terminates 1000); unfold FIB_46; lia].
Defined.

(** C8: the generation with limit 1 leaves the one-element vector [1], and
    the print loop on it with the count 15 writes the text [1]. *)
Theorem generate_1_then_format (fuel : nat) :
  (3 <= fuel)%nat ->
  generate fuel 1 = Ok [1] /\
  exists out,
    formatLastN fuel [1] desiredCount [] = Ok out /\
    render out = "1"%string.
Proof.
  intros L. split.
  - apply (generate_fuel_mono 1 3 fuel); [vm_compute; reflexivity | exact L].
  - exists [PutInt 1]. split; [|vm_compute; reflexivity].
    unfold formatLastN.
    apply (print_loop_fuel_mono _ _ 3 fuel); [vm_compute; reflexivity | exact L].
Qed.

Lemma generate_1_then_format_witness :
  (3 <= 3)%nat /\
  generate 3 1 = Ok [1] /\
  exists out,
    formatLastN 3 [1] desiredCount [] = Ok out /\
    render out = "1"%string.
Proof. split; [lia | apply (generate_1_then_format 3); lia]. Defined.

(** C9: with the limit 1000, at every iteration of the generation loop the
    values of [previous] and [current] and the mathematical sum
    [previous + current] lie in the range of [int] (they lie between 0 and
    1597), so that the sum computed on [int] is the mathematical one: no
    addition overflows.  The loop ends, after 16 iterations, and the values
    it leaves, the [current] and the sum of its last iteration, are in range
    too. *)
Theorem generate_1000_no_overflow (fuel : nat) :
  Forall (fun s => sum_in_range s /\
                   0 <= previous s /\ 0 <= current s /\
                   previous s + current s <= 1597 /\
                   int_add (previous s) (current s) = previous s + current s)
         (iterations fuel limit_1000 init) /\
  exists s,
    generate_loop 17 limit_1000 init = Ok s /\
    List.length (iterations 17 limit_1000 init) = 16%nat /\
    in_int_range (previous s) /\ in_int_range (current s).
Proof.
  assert (exists s, generate_loop 17 limit_1000 init = Ok s /\
                    in_int_rangeb (previous s) && in_int_rangeb (current s)
                    = true)
    as [s [R Rng]]
    by (eexists; split; [vm_compute; reflexivity | vm_compute; reflexivity]).
  split.
  - set (ok := fun s0 : locals =>
                 sum_in_rangeb s0 && (0 <=? previous s0) &&
                 (0 <=? current s0) && (previous s0 + current s0 <=? 1597)).
    assert (Forall (fun s0 => ok s0 = true) (iterations 17 limit_1000 init))
      as Full.
    { apply Forall_forall. apply forallb_forall. vm_compute. reflexivity. }
    assert (Forall (fun s0 => ok s0 = true) (iterations fuel limit_1000 init))
      as Here.
    { destruct (Nat.le_ge_cases fuel 17) as [L | L].
      - destruct (iterations_prefix limit_1000 fuel 17 init L) as [rest E].
        rewrite E in Full. apply Forall_app in Full. apply Full.
      - now rewrite (iterations_fuel_mono _ _ _ _ _ R L). }
    eapply Forall_impl; [|exact Here]. intros s0 Hs. unfold ok in Hs.
    rewrite !andb_true_iff, !Z.leb_le in Hs.
    destruct Hs as [[[Hs H0] H1] H2]. apply sum_in_rangeb_ok in Hs.
    repeat apply conj; try assumption; try apply Hs.
    unfold int_add. apply wrap_int_id. apply Hs.
  - exists s. split; [exact R|]. split; [vm_compute; reflexivity|].
    apply andb_true_iff in Rng. unfold in_int_rangeb in Rng.
    rewrite !andb_true_iff, !Z.leb_le in Rng. exact Rng.
Qed.

(** C10: no access leaves the vector.  At every state the condition of the
    [if] evaluates without a fault, [back] being run on a non-empty vector
    only, and the generation never reads out of bounds, whatever the limit
    and the fuel.  In the print loop, for a [size_t] count [n] and every [i]
    below [count = min n size], the index [size - 1 - i] is below [size] and
    the subscript returns an element; neither the print loop nor [main]
    reads out of bounds. *)
Theorem accesses_in_bounds
        (fuel : nat) (limit n : Z) (s : locals) (fib : Vec.t) (out : stdout) :
  0 <= n < SIZE_MOD ->
  Vec.size fib < SIZE_MOD ->
  (exists fresh, is_new s = Ok fresh) /\
  (Vec.empty (fibonacci s) = false ->
   exists p, Vec.back (fibonacci s) = Ok p) /\
  generate fuel limit <> Err OutOfBounds /\
  (forall i : Z,
      0 <= i < Z.min n (Vec.size fib) ->
      0 <= size_sub (size_sub (Vec.size fib) 1) i < Vec.size fib /\
      exists x,
        Vec.get fib (size_sub (size_sub (Vec.size fib) 1) i) = Ok x) /\
  formatLastN fuel fib n out <> Err OutOfBounds /\
  main fuel <> Err OutOfBounds.
Proof.
  intros Hn Hs. split; [|split; [|split; [|split; [|split]]]].
  - destruct (loop_body_spec s) as [fresh [N _]]. now exists fresh.
  - intros E. apply back_nonempty. intros E0. rewrite E0 in E. discriminate.
  - unfold generate.
    pose proof (generate_loop_in_bounds limit fuel init) as G.
    destruct (generate_loop fuel limit init) as [s'|f]; cbn [bind];
      congruence.
  - intros i Hi.
    destruct (index_in_bounds fib (Z.min n (Vec.size fib)) i
                ltac:(lia) Hs Hi) as [B [x [E _]]].
    split; [exact B | now exists x].
  - unfold formatLastN. apply print_loop_in_bounds; lia.
  - unfold main.
    destruct (generate fuel limit_1000) as [v|f] eqn:Gen; cbn [bind].
    + rewrite (generate_1000_any_fuel _ _ Gen).
      pose proof (print_loop_in_bounds fib_upto_1000
                    (Z.min desiredCount (Vec.size fib_upto_1000))
                    ltac:(lia) ltac:(vm_compute; reflexivity) fuel 0 []
                    ltac:(lia)) as P.
      unfold formatLastN.
      destruct (print_loop fuel fib_upto_1000 _ 0 []) as [o|f]; cbn [bind];
        congruence.
    + pose proof (generate_loop_in_bounds limit_1000 fuel init) as G.
      unfold generate in Gen.
      destruct (generate_loop fuel limit_1000 init); cbn [bind] in Gen;
        congruence.
Qed.

Lemma accesses_in_bounds_witness :
  0 <= 15 < SIZE_MOD /\
  Vec.size fib_upto_1000 < SIZE_MOD /\
  (exists x, Vec.get fib_upto_1000
               (size_sub (size_sub (Vec.size fib_upto_1000) 1) 14) = Ok x) /\
  main 17 <> Err OutOfBounds.
Proof.
  assert (0 <= 15 < SIZE_MOD) as H1
    by (vm_compute; split; [discriminate | reflexivity]).
  assert (Vec.size fib_upto_1000 < SIZE_MOD) as H2
    by (vm_compute; reflexivity).
  assert (0 <= 14 < Z.min 15 (Vec.size fib_upto_1000)) as H3
    by (vm_compute; split; [discriminate | reflexivity]).
  split; [exact H1|]. split; [exact H2|].
  destruct (accesses_in_bounds 17 1000 15 init fib_upto_1000 [] H1 H2)
    as [_ [_ [_ [G [_ M]]]]].
  split; [exact (proj2 (G 14 H3)) | exact M].
Defined.

(** * Further properties of the two loops *)

(** ** More on the Fibonacci numbers *)

Lemma F_pos (k : nat) : (1 <= k)%nat -> 1 <= F k.
Proof. intros H. pose proof (F_mono 1 k H) as M. cbn in M. exact M. Qed.

Lemma F_strict (k : nat) : (2 <= k)%nat -> F k < F (S k).
Proof.
  intros H. destruct k as [|k]; [lia|]. rewrite F_rec.
  pose proof (F_pos k ltac:(lia)). lia.
Qed.

Lemma F_lt_index (a b : nat) : F a < F b -> (a < b)%nat.
Proof.
  intros H. destruct (Nat.lt_ge_cases a b) as [L | L]; [exact L|].
  pose proof (F_mono b a L). lia.
Qed.

(** ** The states of a run without overflow *)

Lemma state_at_0 : state_at 0 = init.
Proof. reflexivity. Qed.

Lemma back_stored_upto (k : nat) :
  (1 <= k)%nat -> Vec.back (stored_upto k) = Ok (F k).
Proof.
  intros H. destruct k as [|j]; [lia|]. cbn [stored_upto].
  destruct (Nat.eqb_spec j 1) as [-> | _]; [reflexivity | apply back_snoc].
Qed.

Lemma is_new_state_at (k : nat) :
  is_new (state_at k) = Ok (negb (k =? 1)%nat).
Proof.
  destruct k as [|k]; [reflexivity|].
  destruct (is_new_total (state_at (S k))) as [[E _] | [p [B N]]].
  - pose proof (back_stored_upto (S k) ltac:(lia)) as B.
    cbn [state_at fibonacci] in E. rewrite E in B. discriminate.
  - rewrite N. cbn [state_at fibonacci current] in *.
    rewrite back_stored_upto in B by lia. injection B as <-.
    destruct k as [|k]; [reflexivity|].
    pose proof (F_strict (S (S k)) ltac:(lia)).
    replace (F (S (S k)) =? F (S (S (S k)))) with false
      by (symmetry; apply Z.eqb_neq; lia).
    reflexivity.
Qed.

Lemma loop_body_state_at (k : nat) :
  (S (S k) <= 46)%nat -> loop_body (state_at k) = Ok (state_at (S k)).
Proof.
  intros Hk. unfold loop_body. rewrite is_new_state_at. cbn [bind].
  unfold state_at. cbn [fibonacci previous current stored_upto].
  f_equal. f_equal.
  - now destruct (k =? 1)%nat.
  - unfold int_add. rewrite <- F_rec. apply wrap_int_id.
    pose proof (F_nonneg (S k)) as [_ N].
    pose proof (F_mono (S (S k)) 46 Hk) as M. rewrite F_46 in M.
    unfold in_int_range, INT_MIN, INT_MAX, FIB_46 in *. lia.
Qed.

(** Below [FIB_46] the run from iteration [k] goes through the states
    [state_at k], ..., [state_at (n - 1)] and leaves [state_at n], where
    [n] is the first index with [limit < F (n + 1)]. *)
Lemma exact_run (limit : Z) :
  limit < FIB_46 ->
  forall (d k : nat),
    (k + d = 45)%nat ->
    exists n : nat,
      (k <= n <= 45)%nat /\
      generate_loop (S (n - k)) limit (state_at k) = Ok (state_at n) /\
      iterations (S (n - k)) limit (state_at k) =
        map state_at (seq k (n - k)) /\
      limit < F (S n) /\
      (forall j, (k <= j < n)%nat -> F (S j) <= limit).
Proof.
  intros Hlim. induction d as [|d IH]; intros k Hk.
  - exists k. assert (k = 45%nat) as -> by lia.
    assert ((current (state_at 45) <=? limit) = false) as G
      by (apply Z.leb_gt; cbn [state_at current]; rewrite F_46; exact Hlim).
    replace (45 - 45)%nat with 0%nat by lia.
    rewrite (generate_loop_exit _ _ _ G), (iterations_exit _ _ _ G).
    repeat apply conj; try lia; try reflexivity.
    now rewrite F_46.
  - destruct (current (state_at k) <=? limit) eqn:G.
    + pose proof (loop_body_state_at k ltac:(lia)) as E.
      destruct (IH (S k) ltac:(lia)) as [n [Hn [R [I [X B]]]]].
      exists n. replace (S (n - k)) with (S (S (n - S k))) by lia.
      rewrite (generate_loop_enter _ _ _ _ G E), (iterations_enter _ _ _ _ G E).
      repeat apply conj; try lia; try exact R; try exact X.
      * rewrite I. replace (S (n - S k)) with (S (n - S k))%nat by lia.
        replace (n - k)%nat with (S (n - S k)) by lia. reflexivity.
      * intros j Hj. destruct (Nat.eq_dec j k) as [-> | Hne].
        -- apply Z.leb_le in G. exact G.
        -- apply B. lia.
    + exists k. replace (k - k)%nat with 0%nat by lia.
      rewrite (generate_loop_exit _ _ _ G), (iterations_exit _ _ _ G).
      repeat apply conj; try lia; try reflexivity.
      apply Z.leb_gt in G. exact G.
Qed.

(** The whole run from [init], for any fuel above the number [n] of
    iterations. *)
Lemma exact_generate (limit : Z) :
  1 <= limit < FIB_46 ->
  exists n : nat,
    (2 <= n <= 45)%nat /\
    F n <= limit < F (S n) /\
    forall fuel : nat,
      (n < fuel)%nat ->
      generate_loop fuel limit init = Ok (state_at n) /\
      iterations fuel limit init = map state_at (seq 0 n).
Proof.
  intros [H1 H2].
  destruct (exact_run limit H2 45 0 eq_refl) as [n [Hn [R [I [X B]]]]].
  rewrite Nat.sub_0_r, state_at_0 in *.
  assert (2 <= n)%nat as Hn2.
  { destruct n as [|[|n]]; [cbn in X; lia | cbn in X; lia | lia]. }
  exists n. split; [lia|]. split.
  - split; [|exact X]. destruct n as [|n]; [lia|]. apply B. lia.
  - intros fuel Hf. assert (S n <= fuel)%nat as L by lia. split.
    + exact (generate_loop_fuel_mono _ _ _ _ _ R L).
    + now rewrite (iterations_fuel_mono _ _ _ _ _ R L).
Qed.

Lemma stored_upto_closed (k : nat) :
  (2 <= k)%nat -> stored_upto k = map F (seq 2 (k - 1)).
Proof.
  induction k as [|k IH]; [lia|]. intros H.
  destruct (Nat.eq_dec k 1) as [-> | Hne]; [reflexivity|].
  cbn [stored_upto]. replace (k =? 1)%nat with false
    by (symmetry; apply Nat.eqb_neq; exact Hne).
  rewrite IH by lia. unfold Vec.push_back.
  replace (S k - 1)%nat with (S (k - 1)) by lia.
  rewrite seq_S, map_app. cbn [map].
  now replace (2 + (k - 1))%nat with (S k) by lia.
Qed.

(** Two runs that end made the same iterations. *)
Lemma iterations_complete (limit : Z) (f1 f2 : nat) (s s1 s2 : locals) :
  generate_loop f1 limit s = Ok s1 ->
  generate_loop f2 limit s = Ok s2 ->
  iterations f1 limit s = iterations f2 limit s.
Proof.
  intros H1 H2. destruct (Nat.le_ge_cases f1 f2) as [L | L].
  - symmetry. exact (iterations_fuel_mono _ _ _ _ _ H1 L).
  - exact (iterations_fuel_mono _ _ _ _ _ H2 L).
Qed.

(** Any run that ends below [FIB_46] is the run of [exact_generate]. *)
Lemma exact_generate_any_fuel (limit : Z) (fuel : nat) (v : Vec.t) :
  1 <= limit < FIB_46 ->
  generate fuel limit = Ok v ->
  exists n : nat,
    (2 <= n <= 45)%nat /\
    F n <= limit < F (S n) /\
    v = map F (seq 2 (n - 1)) /\
    iterations fuel limit init = map state_at (seq 0 n).
Proof.
  intros Hl H. destruct (generate_inv _ _ _ H) as [s [R ->]].
  destruct (exact_generate limit Hl) as [n [Hn [HF Run]]].
  destruct (Run (S n) ltac:(lia)) as [R' I'].
  exists n. repeat apply conj; try lia.
  - rewrite (generate_loop_deterministic _ _ _ _ _ _ R R').
    cbn [state_at fibonacci]. apply stored_upto_closed. lia.
  - now rewrite (iterations_complete _ _ _ _ _ _ R R').
Qed.

Lemma suppressed_state_at (k : nat) : suppressed (state_at k) = (k =? 1)%nat.
Proof.
  unfold suppressed. rewrite is_new_state_at. apply negb_involutive.
Qed.

Lemma filter_suppressed_from_2 (m a : nat) :
  (2 <= a)%nat -> filter suppressed (map state_at (seq a m)) = [].
Proof.
  revert a. induction m as [|m IH]; intros a Ha; [reflexivity|].
  cbn [seq map filter]. rewrite suppressed_state_at.
  replace (a =? 1)%nat with false by (symmetry; apply Nat.eqb_neq; lia).
  apply IH. lia.
Qed.

(** X1: for every limit from 1 to [F 46 - 1], the generation ends and
    leaves exactly the Fibonacci numbers [F 2, F 3, ..., F n], where [F n]
    is the largest Fibonacci number that is at most the limit; it makes [n]
    iterations. *)
Theorem generate_fibonacci_numbers (limit : Z) :
  1 <= limit < FIB_46 ->
  exists n : nat,
    (2 <= n)%nat /\
    F n <= limit < F (S n) /\
    forall fuel : nat,
      (n < fuel)%nat ->
      generate fuel limit = Ok (map F (seq 2 (n - 1))) /\
      List.length (iterations fuel limit init) = n.
Proof.
  intros Hl. destruct (exact_generate limit Hl) as [n [Hn [HF Run]]].
  exists n. split; [lia|]. split; [exact HF|]. intros fuel Hf.
  destruct (Run fuel Hf) as [R I]. split.
  - unfold generate. rewrite R. cbn [bind state_at fibonacci].
    now rewrite stored_upto_closed by lia.
  - now rewrite I, length_map, length_seq.
Qed.

Lemma generate_fibonacci_numbers_witness :
  1 <= 20 < FIB_46 /\
  exists n : nat,
    (2 <= n)%nat /\
    F n <= 20 < F (S n) /\
    forall fuel : nat,
      (n < fuel)%nat ->
      generate fuel 20 = Ok (map F (seq 2 (n - 1))) /\
      List.length (iterations fuel 20 init) = n.
Proof.
  split; [unfold FIB_46; lia|].
  apply (generate_fibonacci_numbers 20). unfold FIB_46. lia.
Defined.

(** X2: for every limit from 1 to [F 46 - 1], a value is in the generated
    vector exactly when it is a Fibonacci number [F k], [k >= 1], that is at
    most the limit: nothing is missed and nothing else is stored. *)
Theorem generate_membership (limit : Z) (fuel : nat) (seq : Vec.t) (x : Z) :
  1 <= limit < FIB_46 ->
  generate fuel limit = Ok seq ->
  In x seq <-> (x <= limit /\ exists k : nat, (1 <= k)%nat /\ x = F k).
Proof.
  intros Hl H.
  destruct (exact_generate_any_fuel limit fuel seq Hl H)
    as [n [Hn [HF [-> _]]]].
  rewrite in_map_iff. split.
  - intros [k [<- Hk]]. apply in_seq in Hk. split.
    + pose proof (F_mono k n ltac:(lia)). lia.
    + exists k. split; [lia | reflexivity].
  - intros [Hx [k [Hk ->]]].
    assert (k < S n)%nat as Hkn by (apply F_lt_index; lia).
    destruct (Nat.eq_dec k 1) as [-> | Hne].
    + exists 2%nat. split; [reflexivity|]. apply in_seq. lia.
    + exists k. split; [reflexivity|]. apply in_seq. lia.
Qed.

Lemma generate_membership_witness :
  1 <= 1000 < FIB_46 /\
  generate 17 1000 = Ok fib_upto_1000 /\
  (In 144 fib_upto_1000 <->
   (144 <= 1000 /\ exists k : nat, (1 <= k)%nat /\ 144 = F k)).
Proof.
  split; [unfold FIB_46; lia|]. split; [vm_compute; reflexivity|].
  apply (generate_membership 1000 17 fib_upto_1000 144);
    [unfold FIB_46; lia | vm_compute; reflexivity].
Defined.

(** X3: for every limit from 1 to [F 46 - 1], the guard against a repeated
    value is false in exactly one iteration of a run, the one entered with
    the vector [1] and [previous = current = 1]; every other iteration
    appends, so the vector has one element less than there were
    iterations. *)
Theorem guard_suppresses_once (limit : Z) (fuel : nat) (seq : Vec.t) :
  1 <= limit < FIB_46 ->
  generate fuel limit = Ok seq ->
  filter suppressed (iterations fuel limit init) =
    [{| fibonacci := [1]; previous := 1; current := 1 |}] /\
  S (List.length seq) = List.length (iterations fuel limit init).
Proof.
  intros Hl H.
  destruct (exact_generate_any_fuel limit fuel seq Hl H)
    as [n [Hn [_ [-> ->]]]].
  split.
  - destruct n as [|[|n]]; try lia.
    cbn [seq map filter]. rewrite !suppressed_state_at. cbn [Nat.eqb].
    now rewrite filter_suppressed_from_2.
  - rewrite !length_map, !length_seq. lia.
Qed.

Lemma guard_suppresses_once_witness :
  1 <= 20 < FIB_46 /\
  generate 9 20 = Ok [1; 2; 3; 5; 8; 13] /\
  filter suppressed (iterations 9 20 init) =
    [{| fibonacci := [1]; previous := 1; current := 1 |}] /\
  S (List.length [1; 2; 3; 5; 8; 13]) = List.length (iterations 9 20 init).
Proof.
  split; [unfold FIB_46; lia|]. split; [vm_compute; reflexivity|].
  apply (guard_suppresses_once 20 9 [1; 2; 3; 5; 8; 13]);
    [unfold FIB_46; lia | vm_compute; reflexivity].
Defined.

(** X4: raising the limit only extends the result: for two limits
    [limit <= limit'] below [F 46], the vector generated for [limit] is a
    prefix of the one generated for [limit']. *)
Theorem generate_prefix
        (limit limit' : Z) (fuel fuel' : nat) (v v' : Vec.t) :
  1 <= limit <= limit' ->
  limit' < FIB_46 ->
  generate fuel limit = Ok v ->
  generate fuel' limit' = Ok v' ->
  exists rest, v' = (v ++ rest)%list.
Proof.
  intros Hl Hl' H H'.
  destruct (exact_generate_any_fuel limit fuel v ltac:(lia) H)
    as [n [Hn [HF [-> _]]]].
  destruct (exact_generate_any_fuel limit' fuel' v' ltac:(lia) H')
    as [n' [Hn' [HF' [-> _]]]].
  assert (n < S n')%nat as L by (apply F_lt_index; lia).
  exists (map F (seq (2 + (n - 1)) (n' - n))).
  rewrite <- map_app, <- seq_app. f_equal. f_equal. lia.
Qed.

Lemma generate_prefix_witness :
  1 <= 20 <= 1000 /\
  1000 < FIB_46 /\
  generate 9 20 = Ok [1; 2; 3; 5; 8; 13] /\
  generate 17 1000 = Ok fib_upto_1000 /\
  exists rest, fib_upto_1000 = ([1; 2; 3; 5; 8; 13] ++ rest)%list.
Proof.
  split; [lia|]. split; [unfold FIB_46; lia|].
  split; [vm_compute; reflexivity|]. split; [vm_compute; reflexivity|].
  apply (generate_prefix 20 1000 9 17);
    [lia | unfold FIB_46; lia | vm_compute; reflexivity
     | vm_compute; reflexivity].
Defined.

Lemma iterations_below_1 (limit : Z) (fuel : nat) :
  limit < 1 -> iterations fuel limit init = [].
Proof.
  intros H. destruct fuel as [|fuel]; [reflexivity|].
  apply iterations_exit. apply Z.leb_gt. exact H.
Qed.

(** X5: the additions of the generation stay within [int] exactly for the
    limits below [F 46 = 1836311903]: below it every iteration of every run
    adds within range, and from it on some iteration computes a sum that is
    not an [int]. *)
Theorem no_overflow_iff_below_FIB_46 (limit : Z) :
  (forall fuel : nat, Forall sum_in_range (iterations fuel limit init)) <->
  limit < FIB_46.
Proof.
  split.
  - intros H. destruct (Z.lt_ge_cases limit FIB_46) as [L | L]; [exact L|].
    destruct (overflow_from_FIB_46 limit L) as [s [I [_ N]]].
    specialize (H 46%nat). rewrite Forall_forall in H.
    destruct (N (H s I)).
  - intros L fuel. destruct (Z.lt_ge_cases limit 1) as [L1 | L1].
    + rewrite iterations_below_1 by exact L1. constructor.
    + destruct (generate_safe limit ltac:(lia)) as [n [s [R [_ [_ [Sum _]]]]]].
      destruct (Nat.le_ge_cases fuel (S n)) as [Le | Ge].
      * destruct (iterations_prefix limit fuel (S n) init Le) as [rest E].
        rewrite E in Sum. apply Forall_app in Sum. apply Sum.
      * now rewrite (iterations_fuel_mono _ _ _ _ _ R Ge).
Qed.

(** The vector is still empty at [init] only; afterwards it starts with 1. *)
Lemma starts_with_1_step (limit : Z) (s s' : locals) :
  (s = init \/ exists rest, fibonacci s = 1 :: rest) ->
  current s <= limit ->
  loop_body s = Ok s' ->
  s' = init \/ exists rest, fibonacci s' = 1 :: rest.
Proof.
  intros P _ B. right. destruct P as [-> | [rest E]].
  - cbn in B. injection B as <-. now exists [].
  - destruct (loop_body_spec s) as [fresh [_ E']]. rewrite E' in B.
    injection B as <-. cbn [fibonacci]. rewrite E.
    destruct fresh; [now exists (rest ++ [current s])%list | now exists rest].
Qed.

(** X6: the generated vector is empty exactly when the limit is below 1, in
    which case the loop body never runs; for every limit of at least 1,
    overflowing or not, the vector is non-empty and its first element is
    1. *)
Theorem generate_empty_or_starts_with_1
        (limit : Z) (fuel : nat) (v : Vec.t) :
  generate fuel limit = Ok v ->
  (limit < 1 /\ v = [] /\ iterations fuel limit init = []) \/
  (1 <= limit /\ exists rest, v = 1 :: rest).
Proof.
  intros H. destruct (generate_inv _ _ _ H) as [s [R ->]].
  destruct (Z.lt_ge_cases limit 1) as [L | L].
  - left. split; [exact L|]. split; [|now apply iterations_below_1].
    destruct fuel as [|fuel]; [discriminate R|].
    rewrite generate_loop_exit in R by (apply Z.leb_gt; exact L).
    now injection R as <-.
  - right. split; [exact L|].
    destruct (proj2 (generate_loop_invariant _ limit
                       (starts_with_1_step limit) fuel init
                       (or_introl eq_refl)) s R) as [[-> | P] X].
    + cbn in X. lia.
    + exact P.
Qed.

Lemma generate_empty_or_starts_with_1_witness :
  (generate 1 0 = Ok [] /\ 0 < 1 /\ iterations 1 0 init = []) /\
  (generate 17 1000 = Ok fib_upto_1000 /\
   1 <= 1000 /\ exists rest, fib_upto_1000 = 1 :: rest) /\
  (exists v, generate 60 FIB_46 = Ok v /\
             In (-1323752223) v /\
             1 <= FIB_46 /\ exists rest, v = 1 :: rest).
Proof.
  assert (generate 1 0 = Ok []) as G0 by (vm_compute; reflexivity).
  assert (generate 17 1000 = Ok fib_upto_1000) as G1
    by (vm_compute; reflexivity).
  assert (exists v, generate 60 FIB_46 = Ok v /\ In (-1323752223) v)
    as [v [G2 W]].
  { eexists. split; [vm_compute; reflexivity|].
    do 45 right. left. reflexivity. }
  split; [|split].
  - split; [exact G0|].
    destruct (generate_empty_or_starts_with_1 0 1 [] G0)
      as [[L [_ I]] | [L _]]; [split; [exact L | exact I] | lia].
  - split; [exact G1|].
    destruct (generate_empty_or_starts_with_1 1000 17 fib_upto_1000 G1)
      as [[L _] | [L R]]; [lia | split; [exact L | exact R]].
  - exists v. split; [exact G2|]. split; [exact W|].
    destruct (generate_empty_or_starts_with_1 FIB_46 60 v G2)
      as [[L _] | [L R]];
      [unfold FIB_46 in L; lia | split; [exact L | exact R]].
Defined.

(** After an iteration the vector ends in [previous], which passed the
    guard. *)
Lemma back_is_previous_step (limit : Z) (s s' : locals) :
  (s = init \/
   (Vec.back (fibonacci s) = Ok (previous s) /\ previous s <= limit)) ->
  current s <= limit ->
  loop_body s = Ok s' ->
  s' = init \/
  (Vec.back (fibonacci s') = Ok (previous s') /\ previous s' <= limit).
Proof.
  intros _ G B. right.
  destruct (loop_body_spec s) as [fresh [N E]]. rewrite E in B.
  injection B as <-. cbn [fibonacci previous]. split; [|exact G].
  destruct fresh; [apply back_snoc|].
  destruct (is_new_total s) as [[_ N'] | [p [Hp N']]];
    rewrite N' in N; [discriminate N|].
  injection N as N. apply negb_false_iff, Z.eqb_eq in N. now rewrite Hp, N.
Qed.

(** X7: for every limit of at least 1, overflowing or not, when the loop
    ends the last element of the vector is the value of [previous], it is at
    most the limit, and [current] is above the limit: the vector ends with
    the last value that passed the guard. *)
Theorem generate_loop_final_state (limit : Z) (fuel : nat) (s : locals) :
  1 <= limit ->
  generate_loop fuel limit init = Ok s ->
  Vec.back (fibonacci s) = Ok (previous s) /\
  previous s <= limit < current s.
Proof.
  intros L R.
  destruct (proj2 (generate_loop_invariant _ limit
                     (back_is_previous_step limit) fuel init
                     (or_introl eq_refl)) s R) as [[-> | [B P]] X].
  - cbn in X. lia.
  - split; [exact B | lia].
Qed.

Lemma generate_loop_final_state_witness :
  1 <= 20 /\
  generate_loop 9 20 init =
    Ok {| fibonacci := [1; 2; 3; 5; 8; 13]; previous := 13; current := 21 |} /\
  Vec.back [1; 2; 3; 5; 8; 13] = Ok 13 /\
  13 <= 20 < 21.
Proof.
  split; [lia|]. split; [vm_compute; reflexivity|].
  apply (generate_loop_final_state 20 9
           {| fibonacci := [1; 2; 3; 5; 8; 13];
              previous := 13; current := 21 |});
    [lia | vm_compute; reflexivity].
Defined.

(** ** What the print loop writes *)


Lemma render_spaced (xs : list Z) :
  render (spaced xs) = join_spaces (map string_of_int xs).
Proof.
  induction xs as [|x [|y r] IH]; [reflexivity | |].
  - cbn. generalize (string_of_int x). intros t.
    induction t as [|c t IHt]; [reflexivity | cbn; now rewrite IHt].
  - change (render (spaced (x :: y :: r)))
      with (string_of_int x ++ " " ++ render (spaced (y :: r)))%string.
    rewrite IH. reflexivity.
Qed.

(** The print loop from an empty output. *)
Lemma formatLastN_exact_aux (fib : Vec.t) (n : Z) (fuel : nat) :
  Vec.size fib < SIZE_MOD ->
  0 <= n ->
  (Z.to_nat (Z.min n (Vec.size fib)) < fuel)%nat ->
  formatLastN fuel fib n [] =
    Ok (spaced (firstn (Z.to_nat (Z.min n (Vec.size fib))) (rev fib))).
Proof.
  intros Hs Hn Hf. unfold formatLastN.
  assert (0 <= Vec.size fib) as S0 by (unfold Vec.size; lia).
  now rewrite (print_loop_exact fib (Z.min n (Vec.size fib)) ltac:(lia) Hs
                 (Z.to_nat (Z.min n (Vec.size fib))) 0 [] fuel
                 ltac:(lia) ltac:(lia) Hf).
Qed.

(** X8: for every vector, empty or not, whose size is a [size_t] and every
    [size_t] [n], the print loop returns without a fault and appends to the
    output exactly the last [min n size] elements, from the back, with one
    space between two neighbours and none before or after; the text written
    is these numbers in decimal joined by single spaces.  On the empty
    vector, or with [n = 0], it appends nothing. *)
Theorem formatLastN_exact
        (fib : Vec.t) (n : Z) (fuel : nat) (out : stdout) :
  0 <= n < SIZE_MOD ->
  Vec.size fib < SIZE_MOD ->
  (Z.to_nat (Z.min n (Vec.size fib)) < fuel)%nat ->
  let xs := firstn (Z.to_nat (Z.min n (Vec.size fib))) (rev fib) in
  formatLastN fuel fib n out = Ok (out ++ spaced xs)%list /\
  render (spaced xs) = join_spaces (map string_of_int xs) /\
  (fib = [] \/ n = 0 -> formatLastN fuel fib n out = Ok out).
Proof.
  intros Hn Hs Hf xs.
  assert (0 <= Vec.size fib) as S0 by (unfold Vec.size; lia).
  assert (formatLastN fuel fib n out = Ok (out ++ spaced xs)%list) as E.
  { unfold formatLastN, xs.
    now rewrite (print_loop_exact fib (Z.min n (Vec.size fib)) ltac:(lia) Hs
                   (Z.to_nat (Z.min n (Vec.size fib))) 0 out fuel
                   ltac:(lia) ltac:(lia) Hf). }
  split; [exact E|]. split; [apply render_spaced|].
  intros Edge.
  assert (xs = []) as X.
  { unfold xs. destruct Edge as [-> | ->].
    - apply firstn_nil.
    - replace (Z.min 0 (Vec.size fib)) with 0 by lia. reflexivity. }
  rewrite E, X. cbn [spaced]. now rewrite app_nil_r.
Qed.

Lemma formatLastN_exact_witness :
  0 <= 2 < SIZE_MOD /\
  Vec.size [1; 2; 3] < SIZE_MOD /\
  formatLastN 3 [1; 2; 3] 2 [] = Ok [PutInt 3; PutStr " "; PutInt 2] /\
  render [PutInt 3; PutStr " "; PutInt 2] = "3 2"%string.
Proof.
  assert (0 <= 2 < SIZE_MOD) as H1
    by (vm_compute; split; [discriminate | reflexivity]).
  assert (Vec.size [1; 2; 3] < SIZE_MOD) as H2 by (vm_compute; reflexivity).
  assert (Z.to_nat (Z.min 2 (Vec.size [1; 2; 3]%Z)) < 3)%nat as H3
    by (vm_compute; lia).
  split; [exact H1|]. split; [exact H2|].
  destruct (formatLastN_exact [1; 2; 3] 2 3 [] H1 H2 H3) as [E [T _]].
  split; [exact E | exact T].
Defined.


Lemma adjacent_rev (R : Z -> Z -> Prop) (v : Vec.t) :
  adjacent R v -> adjacent (fun a b => R b a) (rev v).
Proof.
  intros H i a b Ha Hb. rewrite nth_error_rev in Ha, Hb.
  destruct (Nat.ltb_spec (S i) (List.length v)) as [L | L]; [|discriminate].
  destruct (Nat.ltb_spec i (List.length v)) as [L' | L']; [|discriminate].
  apply (H (List.length v - S (S i))%nat b a Hb).
  now replace (S (List.length v - S (S i))) with (List.length v - S i)%nat
    by lia.
Qed.

Lemma adjacent_firstn (R : Z -> Z -> Prop) (c : nat) (v : Vec.t) :
  adjacent R v -> adjacent R (firstn c v).
Proof.
  intros H i a b Ha Hb. rewrite nth_error_firstn in Ha, Hb.
  destruct (i <? c)%nat; [|discriminate].
  destruct (S i <? c)%nat; [|discriminate].
  exact (H i a b Ha Hb).
Qed.

(** ** The two loops together *)

(** X9: for every limit from 1 to [F 46 - 1] and every [size_t] count
    [n >= 1], generating and then printing ends without a fault (46 units
    of fuel are enough for any such limit); the first number printed is the
    largest Fibonacci number that is at most the limit, and the numbers
    printed are strictly decreasing. *)
Theorem printed_numbers_descend (limit n : Z) (fuel : nat) :
  1 <= limit < FIB_46 ->
  1 <= n < SIZE_MOD ->
  (46 <= fuel)%nat ->
  exists (v : Vec.t) (out : stdout) (m : nat),
    generate fuel limit = Ok v /\
    formatLastN fuel v n [] = Ok out /\
    F m <= limit < F (S m) /\
    hd_error (numbers out) = Some (F m) /\
    adjacent (fun a b => b < a) (numbers out).
Proof.
  intros Hl Hn Hf.
  destruct (exact_generate limit Hl) as [m [Hm [HF Run]]].
  destruct (Run fuel ltac:(lia)) as [R _].
  assert (generate fuel limit = Ok (stored_upto m)) as G
    by (unfold generate; now rewrite R).
  pose proof (stored_upto_closed m ltac:(lia)) as C.
  assert (Vec.size (stored_upto m) = Z.of_nat (m - 1)) as Sz
    by (unfold Vec.size; now rewrite C, length_map, length_seq).
  assert (Vec.size (stored_upto m) < SIZE_MOD) as Hs
    by (rewrite Sz; unfold SIZE_MOD; lia).
  destruct (generate_safe limit Hl) as [n0 [s0 [R0 [_ [_ [_ Inc]]]]]].
  rewrite (generate_loop_deterministic _ _ _ _ _ _ R0 R) in Inc.
  cbn [state_at fibonacci] in Inc.
  set (c := Z.to_nat (Z.min n (Vec.size (stored_upto m)))).
  assert (1 <= c)%nat as Hc by (unfold c; lia).
  pose proof (formatLastN_exact_aux (stored_upto m) n fuel Hs ltac:(lia)
                ltac:(unfold c in *; lia)) as E.
  exists (stored_upto m), (spaced (firstn c (rev (stored_upto m)))), m.
  split; [exact G|]. split; [exact E|]. split; [exact HF|].
  rewrite numbers_spaced. split.
  - rewrite C. replace (m - 1)%nat with (S (m - 2)) by lia.
    rewrite seq_S, map_app, rev_app_distr. cbn [map rev app].
    destruct c as [|c']; [lia|]. cbn [firstn hd_error].
    now replace (2 + (m - 2))%nat with m by lia.
  - apply adjacent_firstn. exact (adjacent_rev Z.lt _ Inc).
Qed.

Lemma printed_numbers_descend_witness :
  1 <= 1000 < FIB_46 /\
  1 <= 15 < SIZE_MOD /\
  (46 <= 46)%nat /\
  exists (v : Vec.t) (out : stdout) (m : nat),
    generate 46 1000 = Ok v /\
    formatLastN 46 v 15 [] = Ok out /\
    F m <= 1000 < F (S m) /\
    hd_error (numbers out) = Some (F m) /\
    adjacent (fun a b => b < a) (numbers out).
Proof.
  assert (1 <= 1000 < FIB_46) as H1 by (unfold FIB_46; lia).
  assert (1 <= 15 < SIZE_MOD) as H2
    by (vm_compute; split; [discriminate | reflexivity]).
  split; [exact H1|]. split; [exact H2|]. split; [lia|].
  apply (printed_numbers_descend 1000 15 46 H1 H2). lia.
Defined.
